(** * fix_escapes.py: the escape fixer of Swift-CMS

    The script reads one file, applies

      re.sub(pattern, replacement, content)

    with the pattern backslash, open parenthesis, the group
    [[a-zA-Z_][a-zA-Z0-9_.]*], backslash, close parenthesis, and the
    replacement open parenthesis, group 1, close parenthesis,

    and writes the result back.  The development has three layers:

    - [Re]: the fragment of Python's [re] that the script uses, as a
      backtracking matcher in continuation-passing style, with [re.sub] /
      [re.subn] as the left-to-right scan over it;
    - the script itself: [pattern], [replacement], [fix_escapes], and [main]
      over a file store and a console;
    - the properties of the specification, proved over these definitions. *)

From Stdlib Require Import String Ascii.
From Stdlib Require Import List Arith Lia Bool.
From Equations Require Import Equations.
Import ListNotations.

(** Text is a sequence of characters.  The character classes of the script are
    ASCII only, so every character outside them (in particular every
    character above 127) is an ordinary character for the matcher. *)
Definition text := list ascii.

Local Open Scope char_scope.
Local Open Scope list_scope.

(** ** The regular-expression engine *)

Module Re.

(** An item of a bracket expression: [c] or [lo-hi]. *)
Inductive set_item : Type :=
| One (c : ascii)
| Range (lo hi : ascii).

Definition in_item (c : ascii) (i : set_item) : bool :=
  match i with
  | One d => Ascii.eqb c d
  | Range lo hi =>
      ((nat_of_ascii lo <=? nat_of_ascii c) && (nat_of_ascii c <=? nat_of_ascii hi))%nat
  end.

Definition in_set (items : list set_item) (c : ascii) : bool :=
  existsb (in_item c) items.

(** The constructs of the script's pattern: an escaped literal, a bracket
    expression, concatenation, the greedy star and a capturing group. *)
Inductive regex : Type :=
| Lit (c : ascii)
| In (items : list set_item)
| Cat (r1 r2 : regex)
| Star (r : regex)
| Group (n : nat) (r : regex).

(** [r+] is [r] followed by the greedy [r*]. *)
Definition Plus (r : regex) : regex := Cat r (Star r).

(** Captured groups, most recent binding first. *)
Definition groups := list (nat * text).

Definition set_group (n : nat) (t : text) (g : groups) : groups := (n, t) :: g.

Fixpoint get_group (n : nat) (g : groups) : text :=
  match g with
  | [] => []
  | (m, t) :: g' => if Nat.eqb n m then t else get_group n g'
  end.

(** A match result: the text after the match and the groups. *)
Definition result := option (text * groups).
Definition cont := text -> groups -> result.
Definition matcher := text -> groups -> cont -> result.

Definition orelse (x y : result) : result :=
  match x with
  | Some _ => x
  | None => y
  end.

(** The greedy repeat: one more iteration of the body first, the rest of the
    pattern when that fails.  An iteration that consumes nothing is
    abandoned, so [length s] iterations are enough. *)
Fixpoint repeat_max (body : matcher) (fuel : nat) (s : text) (g : groups)
  (k : cont) : result :=
  match fuel with
  | 0 => k s g
  | S fuel' =>
      orelse
        (body s g (fun s' g' =>
           if (length s' <? length s)%nat then repeat_max body fuel' s' g' k
           else None))
        (k s g)
  end.

Fixpoint run (r : regex) : matcher :=
  match r with
  | Lit c => fun s g k =>
      match s with
      | d :: s' => if Ascii.eqb c d then k s' g else None
      | [] => None
      end
  | In items => fun s g k =>
      match s with
      | d :: s' => if in_set items d then k s' g else None
      | [] => None
      end
  | Cat r1 r2 => fun s g k => run r1 s g (fun s' g' => run r2 s' g' k)
  | Star r1 => fun s g k => repeat_max (run r1) (length s) s g k
  | Group n r1 => fun s g k =>
      run r1 s g (fun s' g' =>
        k s' (set_group n (firstn (length s - length s') s) g'))
  end.

(** [pattern.match(s)]: the first match of [r] at the start of [s] in
    backtracking order. *)
Definition match_at (r : regex) (s : text) : result :=
  run r s [] (fun s' g => Some (s', g)).

(** A replacement template: literal characters and group references. *)
Inductive tpl_item : Type :=
| TLit (c : ascii)
| TGroup (n : nat).

Definition expand (tpl : list tpl_item) (g : groups) : text :=
  flat_map (fun i => match i with
                     | TLit c => [c]
                     | TGroup n => get_group n g
                     end) tpl.

Definition emit (pre : text) (n : nat) (r : text * nat) : text * nat :=
  (pre ++ fst r, n + snd r).

(** [re.subn]: scan from the left; where the pattern matches, append the
    expanded template and continue behind the match; elsewhere copy one
    character.  An empty match is replaced and the scan moves on by one
    character; the pattern of the script never matches the empty text, see
    [scan_ind] for the three steps its scan takes. *)
Equations subn (pat : regex) (tpl : list tpl_item) (s : text) : text * nat
  by wf (length s) lt :=
  subn pat tpl [] with match_at pat [] := {
    | Some (_, g) := (expand tpl g, 1)
    | None := ([], 0) };
  subn pat tpl (c :: s') with match_at pat (c :: s') := {
    | Some (rest, g) with lt_dec (length rest) (length (c :: s')) := {
        | left _ := emit (expand tpl g) 1 (subn pat tpl rest)
        | right _ := emit (expand tpl g ++ [c]) 1 (subn pat tpl s') };
    | None := emit [c] 0 (subn pat tpl s') }.

(** [re.sub] is the text of [re.subn]. *)
Definition sub (pat : regex) (tpl : list tpl_item) (s : text) : text :=
  fst (subn pat tpl s).

End Re.

Import Re.

(** ** The script *)

(** The bracket expressions [[a-zA-Z_]] and [[a-zA-Z0-9_.]]. *)
Definition first_set : list set_item :=
  [Range "a" "z"; Range "A" "Z"; One "_"].

Definition rest_set : list set_item :=
  [Range "a" "z"; Range "A" "Z"; Range "0" "9"; One "_"; One "."].

(** [pattern]: an escaped backslash, an escaped open parenthesis, the
    capturing group 1 around [first_set] and the starred [rest_set], an
    escaped backslash, an escaped close parenthesis. *)
Definition pattern : regex :=
  Cat (Lit "\")
 (Cat (Lit "(")
 (Cat (Group 1 (Cat (In first_set) (Star (In rest_set))))
 (Cat (Lit "\")
      (Lit ")")))).

(** [replacement]: an open parenthesis, a reference to group 1, a close
    parenthesis. *)
Definition replacement : list tpl_item := [TLit "("; TGroup 1; TLit ")"].

(** [content1 = re.sub(pattern, replacement, content)] *)
Definition fix_escapes (content : text) : text := sub pattern replacement content.

(** The same scan with its count, [re.subn(pattern, replacement, s)]. *)
Definition scan (s : text) : text * nat := subn pattern replacement s.

(** The number of replacements of the scan, as [re.subn] reports it. *)
Definition replaced (s : text) : nat := snd (scan s).

(** *** The script as a transformer of the file store and the console *)

(** A file: its text as text mode delivers it, and whether it may be opened
    for reading and for writing. *)
Record file : Type := {
  content : text;
  readable : bool;
  writable : bool
}.

Record world : Type := {
  files : string -> option file;
  console : list string
}.

Inductive fault : Type :=
| FileNotFoundError
| PermissionError.

Inductive outcome : Type :=
| Done (w : world)
| Raised (e : fault).

Definition path : string :=
  "/Users/gurindersingh/Documents/Developer/Swift-CMS/Sources/CMSAdmin/AdminController.swift".

(** [open(p, 'r')] and [f.read()] *)
Definition read_file (w : world) (p : string) : fault + text :=
  match files w p with
  | None => inl FileNotFoundError
  | Some f => if readable f then inr (content f) else inl PermissionError
  end.

(** [open(p, 'w')] and [f.write(data)]: the file is created when it is
    missing, and overwritten when it may be written. *)
Definition write_file (w : world) (p : string) (data : text) : fault + world :=
  let store f :=
    {| files := fun q => if String.eqb q p then Some f else files w q;
       console := console w |} in
  match files w p with
  | None => inr (store {| content := data; readable := true; writable := true |})
  | Some f =>
      if writable f
      then inr (store {| content := data; readable := readable f;
                         writable := true |})
      else inl PermissionError
  end.

Definition print (line : string) (w : world) : world :=
  {| files := files w; console := console w ++ [line] |}.

Definition main (w : world) : outcome :=
  match read_file w path with
  | inl e => Raised e
  | inr content =>
      let content1 := fix_escapes content in
      match write_file w path content1 with
      | inl e => Raised e
      | inr w' => Done (print "Fixed escaping issues" w')
      end
  end.

(** What a run leaves behind: the text of the file, and the lines it printed. *)
Definition file_after (o : outcome) : option text :=
  match o with
  | Done w' =>
      match read_file w' path with
      | inr c => Some c
      | inl _ => None
      end
  | Raised _ => None
  end.

Definition printed (w : world) (o : outcome) : list string :=
  match o with
  | Done w' => skipn (length (console w)) (console w')
  | Raised _ => []
  end.

(** ** The vocabulary of the specification *)

(** Text literals. *)
Definition t (s : String.string) : text := String.list_ascii_of_string s.

(** The language of a regular expression. *)
Inductive matches : regex -> text -> Prop :=
| M_Lit c : matches (Lit c) [c]
| M_In items c : in_set items c = true -> matches (In items) [c]
| M_Cat r1 r2 u v : matches r1 u -> matches r2 v -> matches (Cat r1 r2) (u ++ v)
| M_Star_nil r : matches (Star r) []
| M_Star_cons r u v :
    matches r u -> matches (Star r) v -> matches (Star r) (u ++ v)
| M_Group n r u : matches r u -> matches (Group n r) u.

(** [w] is an occurrence of the pattern in [s], between [pre] and [post]. *)
Definition occurrence (s pre w post : text) : Prop :=
  matches pattern w /\ s = pre ++ w ++ post.

Definition occurs (s : text) : Prop :=
  exists pre w post, occurrence s pre w post.

(** No occurrence of the pattern in [pre ++ w ++ post] overlaps [w]. *)
Definition untouched (pre w post : text) : Prop :=
  forall p u q,
    occurrence (pre ++ w ++ post) p u q ->
    length p + length u <= length pre \/ length pre + length w <= length p.

(** The character sets the specification names, with the characters the
    code gives them. *)
Definition letters : list set_item := [Range "a" "z"; Range "A" "Z"].
Definition digits : list set_item := [Range "0" "9"].
Definition underscore : list set_item := [One "_"].
Definition period : list set_item := [One "."].

(** The specification's wording of the pattern: a backslash, an open
    parenthesis, one or more characters drawn from letters and underscore
    followed by zero or more characters drawn from letters, digits, underscore
    and period, a backslash, a close parenthesis.  The identifier is what the
    replacement keeps, so the group is around it. *)
Definition spec_pattern : regex :=
  Cat (Lit "\")
 (Cat (Lit "(")
 (Cat (Group 1
         (Cat (Plus (In (letters ++ underscore)))
              (Star (In (letters ++ digits ++ underscore ++ period)))))
 (Cat (Lit "\")
      (Lit ")")))).

Definition is_start (c : ascii) : bool := in_set first_set c.
Definition is_part (c : ascii) : bool := in_set rest_set c.

(** An identifier: a character of [first_set], then characters of
    [rest_set]. *)
Definition is_identifier (id : text) : bool :=
  match id with
  | c :: cs => is_start c && forallb is_part cs
  | [] => false
  end.

(** The over-escaped placeholder around [id], and its repaired form. *)
Definition escaped (id : text) : text := "\" :: "(" :: id ++ ["\"; ")"].
Definition plain (id : text) : text := "(" :: id ++ [")"].

(** [Repaired s out]: [out] is [s] with the match that starts at the leftmost
    position replaced by its identifier between plain parentheses, then the
    leftmost match behind it, and so on; a character at which no match starts
    is copied. *)
Inductive Repaired : text -> text -> Prop :=
| Repaired_nil : Repaired [] []
| Repaired_match id rest out :
    matches pattern (escaped id) ->
    Repaired rest out ->
    Repaired (escaped id ++ rest) (plain id ++ out)
| Repaired_copy c s out :
    (forall w rest, matches pattern w -> c :: s <> w ++ rest) ->
    Repaired s out ->
    Repaired (c :: s) (c :: out).

(** A text with placeholders: each segment is an identifier and the text
    behind it. *)
Fixpoint weave (f : text -> text) (segs : list (text * text)) : text :=
  match segs with
  | [] => []
  | (id, txt) :: segs' => f id ++ txt ++ weave f segs'
  end.

(** The number of backslashes of a text, and the text without them. *)
Definition backslashes (s : text) : nat := length (filter (Ascii.eqb "\") s).

Definition without_backslashes (s : text) : text :=
  filter (fun c => negb (Ascii.eqb "\" c)) s.

(** The texts [ls] with the character [c] between them. *)
Fixpoint join (c : ascii) (ls : list text) : text :=
  match ls with
  | [] => []
  | l :: ls' =>
      match ls' with
      | [] => l
      | _ :: _ => l ++ c :: join c ls'
      end
  end.

(** ** Auxiliary functions of the proofs *)

(** The greedy star over a bracket expression, by recursion on the text. *)
Fixpoint star_in (items : list set_item) (s : text) (g : groups) (k : cont)
  : result :=
  match s with
  | d :: s' =>
      if in_set items d then orelse (star_in items s' g k) (k s g) else k s g
  | [] => k [] g
  end.

(** The characters the star takes and the text it leaves. *)
Fixpoint span_in (items : list set_item) (s : text) : text * text :=
  match s with
  | d :: s' =>
      if in_set items d
      then (d :: fst (span_in items s'), snd (span_in items s'))
      else ([], s)
  | [] => ([], [])
  end.

(** What [pattern] matches at the start of [s], read off the pattern: the
    identifier and the text behind the closing parenthesis. *)
Definition placeholder_at (s : text) : option (text * text) :=
  match s with
  | b :: p :: c :: s1 =>
      if Ascii.eqb "\" b && Ascii.eqb "(" p && is_start c then
        match snd (span_in rest_set s1) with
        | b' :: p' :: rest =>
            if Ascii.eqb "\" b' && Ascii.eqb ")" p'
            then Some (c :: fst (span_in rest_set s1), rest)
            else None
        | _ => None
        end
      else None
  | _ => None
  end.

Definition of_placeholder (r : option (text * text)) : result :=
  match r with
  | Some (id, rest) => Some (rest, [(1, id)])
  | None => None
  end.

(** The decision procedure for [occurs]: try every position. *)
Fixpoint occursb (s : text) : bool :=
  match s with
  | [] => false
  | _ :: s' =>
      match placeholder_at s with
      | Some _ => true
      | None => occursb s'
      end
  end.

(** The occurrences in [s], each with its position (counted from [n]) and
    its length. *)
Fixpoint occurrences_from (n : nat) (s : text) : list (nat * nat) :=
  match s with
  | [] => []
  | _ :: s' =>
      match placeholder_at s with
      | Some (id, _) => (n, length (escaped id)) :: occurrences_from (S n) s'
      | None => occurrences_from (S n) s'
      end
  end.

(** ** The matcher on the pattern of the script *)

Lemma repeat_max_in items fuel : forall s g k,
  length s <= fuel ->
  repeat_max (run (In items)) fuel s g k = star_in items s g k.
Proof.
  induction fuel as [|fuel IH]; intros s g k Hlen.
  - destruct s; [reflexivity | simpl in Hlen; lia].
  - destruct s as [|d s]; [reflexivity|].
    simpl. destruct (in_set items d); [|reflexivity].
    assert (Hlt : (length s <? S (length s))%nat = true)
      by (apply Nat.ltb_lt; lia).
    rewrite Hlt, IH by (simpl in Hlen; lia). reflexivity.
Qed.

Lemma orelse_none x : orelse x None = x.
Proof. destruct x; reflexivity. Qed.

Lemma span_in_app items s :
  fst (span_in items s) ++ snd (span_in items s) = s.
Proof.
  induction s as [|d s IH]; simpl; [reflexivity|].
  destruct (in_set items d); simpl; [rewrite IH|]; reflexivity.
Qed.

Lemma span_in_all items s :
  forallb (in_set items) (fst (span_in items s)) = true.
Proof.
  induction s as [|d s IH]; simpl; [reflexivity|].
  destruct (in_set items d) eqn:E; simpl; [rewrite E, IH|]; reflexivity.
Qed.

(** When the rest of the pattern cannot start with a character of the set,
    backtracking into the star never succeeds: the star takes the whole run. *)
Lemma star_in_greedy items k :
  (forall d s g, in_set items d = true -> k (d :: s) g = None) ->
  forall s g, star_in items s g k = k (snd (span_in items s)) g.
Proof.
  intros Hk s g. induction s as [|d s IH]; simpl; [reflexivity|].
  destruct (in_set items d) eqn:E; simpl; [|reflexivity].
  rewrite (Hk d s g E), orelse_none. exact IH.
Qed.

Lemma star_in_absorb items k :
  (forall d s g, in_set items d = true -> k (d :: s) g = k s g) ->
  forall s g, star_in items s g k = k s g.
Proof.
  intros Hk s g. induction s as [|d s IH]; cbn [star_in]; [reflexivity|].
  destruct (in_set items d) eqn:E; [|reflexivity].
  rewrite IH, (Hk d s g E). destruct (k s g); reflexivity.
Qed.

Lemma rest_set_not_backslash d : in_set rest_set d = true -> Ascii.eqb "\" d = false.
Proof.
  intros H. destruct (Ascii.eqb_spec "\" d) as [<-|]; [|reflexivity].
  discriminate H.
Qed.

Lemma firstn_span items c s :
  firstn (length (c :: s) - length (snd (span_in items s))) (c :: s)
  = c :: fst (span_in items s).
Proof.
  pose proof (span_in_app items s) as Happ.
  assert (Hlen : length s
                 = length (fst (span_in items s)) + length (snd (span_in items s)))
    by (rewrite <- length_app, Happ; reflexivity).
  replace (length (c :: s) - length (snd (span_in items s)))
    with (S (length (fst (span_in items s))))
    by (change (length (c :: s)) with (S (length s)); lia).
  simpl. f_equal.
  rewrite <- Happ at 2. rewrite firstn_app, firstn_all, Nat.sub_diag.
  simpl. apply app_nil_r.
Qed.

Lemma match_at_pattern s :
  match_at pattern s = of_placeholder (placeholder_at s).
Proof.
  unfold match_at, pattern.
  destruct s as [|b [|p [|c s1]]]; cbn [run placeholder_at of_placeholder].
  - reflexivity.
  - destruct (Ascii.eqb "\" b); reflexivity.
  - destruct (Ascii.eqb "\" b); [|reflexivity].
    destruct (Ascii.eqb "(" p); reflexivity.
  - destruct (Ascii.eqb "\" b); [|reflexivity].
    destruct (Ascii.eqb "(" p); [|reflexivity].
    fold (is_start c). destruct (is_start c); [|reflexivity].
    cbn [andb].
    etransitivity; [apply (repeat_max_in rest_set); lia|].
    rewrite star_in_greedy.
    + rewrite firstn_span.
      destruct (snd (span_in rest_set s1)) as [|b' [|p' rest]]; try reflexivity.
      * destruct (Ascii.eqb "\" b'); reflexivity.
      * destruct (Ascii.eqb "\" b'); [|reflexivity].
        destruct (Ascii.eqb ")" p'); reflexivity.
    + intros d s g Hd. rewrite (rest_set_not_backslash _ Hd). reflexivity.
Qed.

Lemma is_start_part c : is_start c = true -> is_part c = true.
Proof.
  destruct c as [[] [] [] [] [] [] [] []]; vm_compute; congruence.
Qed.

Lemma match_at_spec_pattern s :
  match_at spec_pattern s = of_placeholder (placeholder_at s).
Proof.
  unfold match_at, spec_pattern, Plus.
  destruct s as [|b [|p [|c s1]]]; cbn [run placeholder_at of_placeholder].
  - reflexivity.
  - destruct (Ascii.eqb "\" b); reflexivity.
  - destruct (Ascii.eqb "\" b); [|reflexivity].
    destruct (Ascii.eqb "(" p); reflexivity.
  - destruct (Ascii.eqb "\" b); [|reflexivity].
    destruct (Ascii.eqb "(" p); [|reflexivity].
    change (in_set (letters ++ underscore) c) with (is_start c).
    destruct (is_start c); [|reflexivity].
    cbn [andb].
    etransitivity; [apply (repeat_max_in first_set); lia|].
    match goal with |- star_in _ _ _ ?k = _ => set (k1 := k) end.
    assert (Hk1 : forall s g,
               k1 s g
               = star_in rest_set s g (fun s' g' =>
                   run (Cat (Lit "\") (Lit ")")) s'
                     (set_group 1
                        (firstn (length (c :: s1) - length s') (c :: s1)) g')
                     (fun s'' g'' => Some (s'', g'')))).
    { intros s g. subst k1. cbv beta.
      etransitivity; [apply (repeat_max_in rest_set); lia|]. reflexivity. }
    assert (Hk2 : forall s g,
               k1 s g
               = run (Cat (Lit "\") (Lit ")")) (snd (span_in rest_set s))
                   (set_group 1
                      (firstn (length (c :: s1)
                               - length (snd (span_in rest_set s))) (c :: s1)) g)
                   (fun s'' g'' => Some (s'', g''))).
    { intros s g. rewrite Hk1, star_in_greedy; [reflexivity|].
      intros d s' g' Hd. cbn [run].
      rewrite (rest_set_not_backslash d Hd). reflexivity. }
    rewrite star_in_absorb.
    + rewrite Hk2, firstn_span. cbn [run].
      destruct (snd (span_in rest_set s1)) as [|b' [|p' rest]]; try reflexivity.
      * destruct (Ascii.eqb "\" b'); reflexivity.
      * destruct (Ascii.eqb "\" b'); [|reflexivity].
        destruct (Ascii.eqb ")" p'); reflexivity.
    + intros d s g Hd. rewrite !Hk2. cbn [span_in].
      change (in_set first_set d) with (is_start d) in Hd.
      apply is_start_part in Hd. unfold is_part in Hd. rewrite Hd. reflexivity.
Qed.

Lemma subn_nil pat tpl :
  subn pat tpl []
  = match match_at pat [] with
    | Some (_, g) => (expand tpl g, 1)
    | None => ([], 0)
    end.
Proof.
  simp subn. destruct (match_at pat []) as [[rest g]|]; reflexivity.
Qed.

Lemma subn_cons pat tpl c s :
  subn pat tpl (c :: s)
  = match match_at pat (c :: s) with
    | Some (rest, g) =>
        if lt_dec (length rest) (length (c :: s))
        then emit (expand tpl g) 1 (subn pat tpl rest)
        else emit (expand tpl g ++ [c]) 1 (subn pat tpl s)
    | None => emit [c] 0 (subn pat tpl s)
    end.
Proof.
  simp subn. destruct (match_at pat (c :: s)) as [[rest g]|]; simpl;
    [destruct (lt_dec (length rest) (S (length s)))|]; reflexivity.
Qed.

(** The scan depends on the pattern through [match_at] only. *)
Lemma subn_ext pat1 pat2 tpl :
  (forall s, match_at pat1 s = match_at pat2 s) ->
  forall s, subn pat1 tpl s = subn pat2 tpl s.
Proof.
  intros H s. remember (length s) as n eqn:Hn. revert s Hn.
  induction n as [n IH] using lt_wf_ind. intros s Hn.
  destruct s as [|c s].
  - rewrite !subn_nil, H. reflexivity.
  - rewrite !subn_cons, H.
    destruct (match_at pat2 (c :: s)) as [[rest g]|].
    + destruct (lt_dec (length rest) (length (c :: s))) as [Hlt|_].
      * rewrite (IH (length rest)); [reflexivity | lia | reflexivity].
      * rewrite (IH (length s)); [reflexivity | simpl in Hn; lia | reflexivity].
    + rewrite (IH (length s)); [reflexivity | simpl in Hn; lia | reflexivity].
Qed.

(** ** Placeholders *)

Lemma span_in_stop items cs d tl :
  forallb (in_set items) cs = true -> in_set items d = false ->
  span_in items (cs ++ d :: tl) = (cs, d :: tl).
Proof.
  intros Hcs Hd. induction cs as [|c cs IH]; simpl.
  - rewrite Hd. reflexivity.
  - simpl in Hcs. apply andb_true_iff in Hcs as [Hc Hcs].
    rewrite Hc, (IH Hcs). reflexivity.
Qed.

Lemma placeholder_at_escaped id rest :
  is_identifier id = true -> placeholder_at (escaped id ++ rest) = Some (id, rest).
Proof.
  destruct id as [|c cs]; [discriminate|]. cbn [is_identifier].
  intros H. apply andb_true_iff in H as [Hc Hcs].
  unfold escaped. cbn [app placeholder_at Ascii.eqb Bool.eqb andb].
  rewrite Hc, <- app_assoc. cbn [app].
  rewrite (span_in_stop rest_set cs "\" (")" :: rest) Hcs eq_refl).
  reflexivity.
Qed.

Lemma placeholder_at_inv s id rest :
  placeholder_at s = Some (id, rest) ->
  is_identifier id = true /\ s = escaped id ++ rest.
Proof.
  destruct s as [|b [|p [|c s1]]]; try discriminate. cbn [placeholder_at].
  destruct (Ascii.eqb_spec "\" b) as [<-|]; [|discriminate].
  destruct (Ascii.eqb_spec "(" p) as [<-|]; [|discriminate].
  destruct (is_start c) eqn:Hc; [|discriminate]. cbn [andb].
  pose proof (span_in_app rest_set s1) as Happ.
  pose proof (span_in_all rest_set s1) as Hall.
  destruct (snd (span_in rest_set s1)) as [|b' [|p' rest']]; try discriminate.
  destruct (Ascii.eqb_spec "\" b') as [<-|]; [|discriminate].
  destruct (Ascii.eqb_spec ")" p') as [<-|]; [|discriminate].
  cbn [andb]. intros [= <- <-]. split.
  - simpl. rewrite Hc. exact Hall.
  - unfold escaped. simpl. rewrite <- app_assoc. simpl. rewrite Happ. reflexivity.
Qed.

Lemma span_in_app_l items u v :
  span_in items (u ++ v)
  = match snd (span_in items u) with
    | [] => (u ++ fst (span_in items v), snd (span_in items v))
    | _ :: _ => (fst (span_in items u), snd (span_in items u) ++ v)
    end.
Proof.
  induction u as [|d u IH].
  - simpl. destruct (span_in items v); reflexivity.
  - cbn [app span_in]. destruct (in_set items d); [|reflexivity].
    rewrite IH. cbn [snd fst].
    destruct (snd (span_in items u)); reflexivity.
Qed.

Lemma placeholder_at_before u X id rest :
  u <> [] ->
  placeholder_at (u ++ "\" :: "(" :: X) = Some (id, rest) ->
  exists r, placeholder_at u = Some (id, r) /\ rest = r ++ "\" :: "(" :: X.
Proof.
  intros Hu.
  destruct u as [|b [|p [|c u1]]]; [congruence| | |]; cbn [app placeholder_at].
  - destruct (Ascii.eqb "\" b); discriminate.
  - rewrite andb_false_r. discriminate.
  - destruct (Ascii.eqb "\" b && Ascii.eqb "(" p && is_start c); [|discriminate].
    rewrite span_in_app_l.
    destruct (snd (span_in rest_set u1)) as [|b' [|p' r]]; cbn [snd fst app].
    + discriminate.
    + destruct (Ascii.eqb "\" b'); discriminate.
    + destruct (Ascii.eqb "\" b' && Ascii.eqb ")" p'); [|discriminate].
      intros [= <- <-]. exists r. split; reflexivity.
Qed.

Lemma placeholder_at_app u v id r :
  placeholder_at u = Some (id, r) -> placeholder_at (u ++ v) = Some (id, r ++ v).
Proof.
  intros H. apply placeholder_at_inv in H as [Hid ->].
  rewrite <- app_assoc. apply placeholder_at_escaped, Hid.
Qed.

Lemma span_unique items a x u b y v :
  forallb (in_set items) a = true -> forallb (in_set items) b = true ->
  in_set items x = false -> in_set items y = false ->
  a ++ x :: u = b ++ y :: v -> a = b /\ x = y /\ u = v.
Proof.
  intros Ha Hb Hx Hy E.
  pose proof (span_in_stop items a x u Ha Hx) as E1.
  rewrite E, (span_in_stop items b y v Hb Hy) in E1.
  injection E1 as -> -> ->. auto.
Qed.

Lemma placeholder_at_other c s : c <> "\" -> placeholder_at (c :: s) = None.
Proof.
  intros Hc. destruct s as [|p [|d s1]]; try reflexivity. cbn [placeholder_at].
  destruct (Ascii.eqb_spec "\" c) as [E|_]; [congruence | reflexivity].
Qed.

Lemma placeholder_at_not_paren b p s : p <> "(" -> placeholder_at (b :: p :: s) = None.
Proof.
  intros Hp. destruct s as [|c s1]; [reflexivity|]. cbn [placeholder_at].
  destruct (Ascii.eqb_spec "(" p) as [E|_]; [congruence|].
  rewrite andb_false_r. reflexivity.
Qed.

Lemma is_identifier_part id : is_identifier id = true -> forallb is_part id = true.
Proof.
  destruct id as [|c cs]; [discriminate|]. cbn [is_identifier forallb].
  intros H. apply andb_true_iff in H as [Hc Hcs].
  rewrite (is_start_part c Hc), Hcs. reflexivity.
Qed.

(** ** The language of the pattern *)

Lemma matches_star_in items w :
  matches (Star (In items)) w <-> forallb (in_set items) w = true.
Proof.
  split.
  - intros H. remember (Star (In items)) as r eqn:Hr.
    induction H as [| | | |r u v Hu _ Hv IH|]; try discriminate; [reflexivity|].
    injection Hr as ->. inversion Hu; subst.
    cbn [app forallb]. rewrite IH by reflexivity.
    apply andb_true_iff. auto.
  - induction w as [|c w IH]; intros H; [constructor|].
    cbn [forallb] in H. apply andb_true_iff in H as [Hc Hw].
    apply (M_Star_cons (In items) [c] w); [constructor; exact Hc | exact (IH Hw)].
Qed.

Lemma matches_escaped r :
  (forall id, matches r id <-> is_identifier id = true) ->
  forall w,
    matches (Cat (Lit "\") (Cat (Lit "(") (Cat (Group 1 r) (Cat (Lit "\") (Lit ")")))))
      w
    <-> exists id, is_identifier id = true /\ w = escaped id.
Proof.
  intros Hr w. split.
  - intros H.
    inversion H as [| |? ? u1 v1 H1 H2| | |]; subst. inversion H1; subst.
    inversion H2 as [| |? ? u2 v2 H3 H4| | |]; subst. inversion H3; subst.
    inversion H4 as [| |? ? u3 v3 H5 H6| | |]; subst.
    inversion H5 as [| | | | |? ? ? Hid]; subst.
    inversion H6 as [| |? ? u4 v4 H7 H8| | |]; subst.
    inversion H7; subst. inversion H8; subst.
    exists u3. split; [apply Hr, Hid | reflexivity].
  - intros (id & Hid & ->).
    apply (M_Cat (Lit "\") _ ["\"] ("(" :: id ++ ["\"; ")"])); [constructor|].
    apply (M_Cat (Lit "(") _ ["("] (id ++ ["\"; ")"])); [constructor|].
    apply M_Cat; [constructor; apply Hr, Hid|].
    apply (M_Cat (Lit "\") (Lit ")") ["\"] [")"]); constructor.
Qed.

Lemma matches_identifier id :
  matches (Cat (In first_set) (Star (In rest_set))) id <-> is_identifier id = true.
Proof.
  split.
  - intros H. inversion H as [| |? ? u v Hu Hv| | |]; subst.
    inversion Hu as [|? c Hc| | | |]; subst.
    apply matches_star_in in Hv. cbn [app is_identifier].
    apply andb_true_iff. auto.
  - destruct id as [|c cs]; [discriminate|]. cbn [is_identifier].
    intros H. apply andb_true_iff in H as [Hc Hcs].
    apply (M_Cat (In first_set) _ [c] cs); [constructor; exact Hc|].
    apply matches_star_in, Hcs.
Qed.

Lemma matches_spec_identifier id :
  matches (Cat (Plus (In (letters ++ underscore)))
               (Star (In (letters ++ digits ++ underscore ++ period)))) id
  <-> is_identifier id = true.
Proof.
  change (letters ++ underscore) with first_set.
  change (letters ++ digits ++ underscore ++ period) with rest_set.
  unfold Plus. split.
  - intros H. inversion H as [| |? ? u v Hu Hv| | |]; subst.
    inversion Hu as [| |? ? u1 v1 Hc Hu1| | |]; subst.
    inversion Hc as [|? c Hc'| | | |]; subst.
    apply matches_star_in in Hu1, Hv. cbn [app is_identifier].
    apply andb_true_iff. split; [exact Hc'|].
    rewrite forallb_app. apply andb_true_iff. split; [|exact Hv].
    apply forallb_forall. intros d Hd.
    rewrite forallb_forall in Hu1. apply is_start_part, Hu1, Hd.
  - destruct id as [|c cs]; [discriminate|]. cbn [is_identifier].
    intros H. apply andb_true_iff in H as [Hc Hcs].
    apply (M_Cat (Cat (In first_set) (Star (In first_set))) _ [c] cs).
    + apply (M_Cat (In first_set) _ [c] []); constructor. exact Hc.
    + apply matches_star_in, Hcs.
Qed.

Lemma matches_pattern w :
  matches pattern w <-> exists id, is_identifier id = true /\ w = escaped id.
Proof. apply matches_escaped, matches_identifier. Qed.

Lemma matches_spec_pattern w :
  matches spec_pattern w <-> exists id, is_identifier id = true /\ w = escaped id.
Proof. apply matches_escaped, matches_spec_identifier. Qed.

(** ** The scan of the script *)

Lemma fix_escapes_scan s : fix_escapes s = fst (scan s).
Proof. reflexivity. Qed.

Lemma scan_nil : scan [] = ([], 0).
Proof. reflexivity. Qed.

Lemma scan_miss c s :
  placeholder_at (c :: s) = None -> scan (c :: s) = emit [c] 0 (scan s).
Proof.
  intros H. unfold scan. rewrite subn_cons, match_at_pattern, H. reflexivity.
Qed.

Lemma scan_hit id rest :
  is_identifier id = true ->
  scan (escaped id ++ rest) = emit (plain id) 1 (scan rest).
Proof.
  intros H. unfold scan.
  change (escaped id ++ rest) with ("\" :: "(" :: (id ++ ["\"; ")"]) ++ rest).
  rewrite subn_cons.
  change ("\" :: "(" :: (id ++ ["\"; ")"]) ++ rest) with (escaped id ++ rest).
  rewrite match_at_pattern, (placeholder_at_escaped id rest H). cbn [of_placeholder].
  destruct (lt_dec _ _) as [_|Hn].
  - reflexivity.
  - exfalso. apply Hn. unfold escaped. simpl. rewrite !length_app. simpl. lia.
Qed.

(** Induction along the scan: the empty text, a copied character, a replaced
    placeholder. *)
Lemma scan_ind (P : list ascii -> Prop) :
  P [] ->
  (forall c s, placeholder_at (c :: s) = None -> P s -> P (c :: s)) ->
  (forall id rest, is_identifier id = true -> P rest -> P (escaped id ++ rest)) ->
  forall s : list ascii, P s.
Proof.
  intros Hnil Hmiss Hhit s.
  remember (length s) as n eqn:Hn. revert s Hn.
  induction n as [n IH] using lt_wf_ind. intros s Hn.
  destruct s as [|c s]; [exact Hnil|].
  destruct (placeholder_at (c :: s)) as [[id rest]|] eqn:E.
  - apply placeholder_at_inv in E as [Hid Hs]. rewrite Hs.
    apply Hhit; [exact Hid|].
    apply (IH (length rest)); [|reflexivity].
    rewrite Hn, Hs. unfold escaped. simpl. rewrite !length_app. simpl. lia.
  - apply Hmiss; [exact E|].
    apply (IH (length s)); [simpl in Hn; lia | reflexivity].
Qed.

Lemma fix_escapes_nil : fix_escapes [] = [].
Proof. reflexivity. Qed.

Lemma fix_escapes_miss c s :
  placeholder_at (c :: s) = None -> fix_escapes (c :: s) = c :: fix_escapes s.
Proof. intros H. rewrite !fix_escapes_scan, (scan_miss c s H). reflexivity. Qed.

Lemma fix_escapes_hit id rest :
  is_identifier id = true ->
  fix_escapes (escaped id ++ rest) = plain id ++ fix_escapes rest.
Proof. intros H. rewrite !fix_escapes_scan, (scan_hit id rest H). reflexivity. Qed.

Lemma replaced_miss c s :
  placeholder_at (c :: s) = None -> replaced (c :: s) = replaced s.
Proof. intros H. unfold replaced. rewrite (scan_miss c s H). reflexivity. Qed.

Lemma replaced_hit id rest :
  is_identifier id = true -> replaced (escaped id ++ rest) = S (replaced rest).
Proof. intros H. unfold replaced. rewrite (scan_hit id rest H). reflexivity. Qed.

Lemma emit_emit a n b m r : emit a n (emit b m r) = emit (a ++ b) (n + m) r.
Proof. unfold emit. simpl. rewrite app_assoc, Nat.add_assoc. reflexivity. Qed.

Lemma emit_nil r : emit [] 0 r = r.
Proof. destruct r; reflexivity. Qed.

(** ** Occurrences of the pattern in a text *)

Lemma occursb_true s : occursb s = true -> occurs s.
Proof.
  induction s as [|c s IH]; [discriminate|].
  cbn [occursb]. destruct (placeholder_at (c :: s)) as [[id rest]|] eqn:E.
  - intros _. apply placeholder_at_inv in E as [Hid Hs].
    exists [], (escaped id), rest. split; [|exact Hs].
    apply matches_pattern. exists id. auto.
  - intros H. destruct (IH H) as (pre & w & post & Hw & Hs).
    exists (c :: pre), w, post. split; [exact Hw|]. rewrite Hs. reflexivity.
Qed.

Lemma occurs_occursb s : occurs s -> occursb s = true.
Proof.
  intros (pre & w & post & Hw & ->).
  apply matches_pattern in Hw as (id & Hid & ->).
  induction pre as [|c pre IH].
  - cbn [app]. unfold escaped at 1. cbn [app occursb].
    change ("\" :: "(" :: (id ++ ["\"; ")"]) ++ post) with (escaped id ++ post).
    rewrite (placeholder_at_escaped id post Hid). reflexivity.
  - cbn [app occursb]. rewrite IH.
    destruct (placeholder_at (c :: pre ++ escaped id ++ post)); reflexivity.
Qed.

Lemma not_occurs_iff s : ~ occurs s <-> occursb s = false.
Proof.
  split.
  - intros H. destruct (occursb s) eqn:E; [|reflexivity].
    exfalso. apply H, occursb_true, E.
  - intros E H. apply occurs_occursb in H. congruence.
Qed.

Lemma not_occurs_cons c s :
  ~ occurs (c :: s) -> placeholder_at (c :: s) = None /\ ~ occurs s.
Proof.
  rewrite !not_occurs_iff. cbn [occursb].
  destruct (placeholder_at (c :: s)); [discriminate | auto].
Qed.

Lemma fix_escapes_clean s : ~ occurs s -> fix_escapes s = s.
Proof.
  induction s as [|c s IH]; intros H; [reflexivity|].
  apply not_occurs_cons in H as [Hc Hs].
  rewrite (fix_escapes_miss c s Hc), (IH Hs). reflexivity.
Qed.

Lemma replaced_clean s : ~ occurs s -> replaced s = 0.
Proof.
  induction s as [|c s IH]; intros H; [reflexivity|].
  apply not_occurs_cons in H as [Hc Hs].
  rewrite (replaced_miss c s Hc). exact (IH Hs).
Qed.

(** ** A match never runs into a following backslash-parenthesis *)

(** The scan of a text in front of a backslash-parenthesis does not depend on
    what follows. *)
Lemma scan_before u X :
  scan (u ++ "\" :: "(" :: X)
  = emit (fst (scan u)) (snd (scan u)) (scan ("\" :: "(" :: X)).
Proof.
  induction u as [|c s Hc IH|id rest Hid IH] using scan_ind.
  - cbn [app]. rewrite scan_nil. cbn [fst snd]. symmetry. apply emit_nil.
  - assert (Hc' : placeholder_at ((c :: s) ++ "\" :: "(" :: X) = None).
    { destruct (placeholder_at ((c :: s) ++ "\" :: "(" :: X)) as [[id rest]|] eqn:E;
        [|reflexivity].
      apply placeholder_at_before in E as (r & E & _); [congruence | discriminate]. }
    cbn [app] in *. rewrite (scan_miss _ _ Hc'), (scan_miss _ _ Hc), IH.
    rewrite emit_emit. reflexivity.
  - rewrite <- app_assoc, !(scan_hit _ _ Hid), IH, emit_emit. reflexivity.
Qed.

Lemma scan_segment txt id rest :
  ~ occurs txt -> is_identifier id = true ->
  scan (txt ++ escaped id ++ rest) = emit (txt ++ plain id) 1 (scan rest).
Proof.
  intros Htxt Hid.
  change (escaped id ++ rest) with ("\" :: "(" :: (id ++ ["\"; ")"]) ++ rest).
  rewrite scan_before.
  change ("\" :: "(" :: (id ++ ["\"; ")"]) ++ rest) with (escaped id ++ rest).
  rewrite (scan_hit id rest Hid), emit_emit.
  change (fst (scan txt)) with (fix_escapes txt).
  change (snd (scan txt)) with (replaced txt).
  rewrite (fix_escapes_clean txt Htxt), (replaced_clean txt Htxt). reflexivity.
Qed.

(** ** The output of the scan *)

(** A character of the output other than an open parenthesis was copied. *)
Lemma fix_escapes_head s a out :
  fix_escapes s = a :: out -> a <> "(" ->
  exists s1, s = a :: s1 /\ placeholder_at (a :: s1) = None /\ out = fix_escapes s1.
Proof.
  intros E Ha. destruct s as [|c s1]; [discriminate|].
  destruct (placeholder_at (c :: s1)) as [[id rest]|] eqn:Ec.
  - apply placeholder_at_inv in Ec as [Hid Hs].
    rewrite Hs, (fix_escapes_hit id rest Hid) in E. injection E as <- _. congruence.
  - rewrite (fix_escapes_miss c s1 Ec) in E. injection E as <- <-.
    exists s1. auto.
Qed.

(** A run of identifier characters closed by backslash-parenthesis in the
    output stands in the input as it is. *)
Lemma fix_escapes_run cs : forall s rest,
  forallb is_part cs = true ->
  fix_escapes s = cs ++ "\" :: ")" :: rest ->
  exists rest', s = cs ++ "\" :: ")" :: rest' /\ rest = fix_escapes rest'.
Proof.
  induction cs as [|a cs IH]; intros s rest Hcs E; cbn [app] in *.
  - apply fix_escapes_head in E as (s1 & -> & _ & E); [|discriminate].
    symmetry in E. apply fix_escapes_head in E as (s2 & -> & _ & E); [|discriminate].
    exists s2. auto.
  - cbn [forallb] in Hcs. apply andb_true_iff in Hcs as [Ha Hcs].
    apply fix_escapes_head in E as (s1 & -> & _ & E).
    + symmetry in E. destruct (IH s1 rest Hcs E) as (rest' & -> & Hr).
      exists rest'. auto.
    + intros ->. discriminate Ha.
Qed.

(** The output never starts with a placeholder. *)
Lemma placeholder_at_fix_escapes s : placeholder_at (fix_escapes s) = None.
Proof.
  destruct (placeholder_at (fix_escapes s)) as [[id rest]|] eqn:E; [|reflexivity].
  exfalso. apply placeholder_at_inv in E as [Hid E].
  pose proof (is_identifier_part id Hid) as Hpart.
  unfold escaped in E. cbn [app] in E.
  apply fix_escapes_head in E as (s1 & -> & Hmiss & E); [|discriminate].
  symmetry in E. rewrite <- app_assoc in E. cbn [app] in E.
  destruct s1 as [|d s2]; [discriminate|].
  destruct (placeholder_at (d :: s2)) as [[id2 r2]|] eqn:Ed.
  - apply placeholder_at_inv in Ed as [Hid2 Hs].
    rewrite Hs, (fix_escapes_hit id2 r2 Hid2) in E.
    unfold plain in E. cbn [app] in E. rewrite <- app_assoc in E. cbn [app] in E.
    injection E as E.
    apply (span_unique rest_set) in E as (_ & E & _);
      [discriminate | apply is_identifier_part, Hid2 | exact Hpart
      | reflexivity | reflexivity].
  - rewrite (fix_escapes_miss d s2 Ed) in E. injection E as -> E.
    apply fix_escapes_run in E as (rest' & -> & _); [|exact Hpart].
    assert (Hs : "\" :: "(" :: id ++ "\" :: ")" :: rest' = escaped id ++ rest')
      by (unfold escaped; cbn [app]; rewrite <- app_assoc; reflexivity).
    rewrite Hs, (placeholder_at_escaped id rest' Hid) in Hmiss. discriminate.
Qed.

Lemma no_backslash_plain id :
  is_identifier id = true -> Forall (fun c => c <> "\") (plain id).
Proof.
  intros Hid. apply is_identifier_part in Hid.
  unfold plain. constructor; [discriminate|].
  apply Forall_app. split.
  - apply Forall_forall. intros c Hc ->.
    rewrite forallb_forall in Hid. specialize (Hid _ Hc). discriminate Hid.
  - constructor; [discriminate | constructor].
Qed.

Lemma scan_copy l X :
  Forall (fun c => c <> "\") l -> scan (l ++ X) = emit l 0 (scan X).
Proof.
  induction 1 as [|c l Hc _ IH]; cbn [app].
  - symmetry. apply emit_nil.
  - rewrite (scan_miss c (l ++ X) (placeholder_at_other c (l ++ X) Hc)), IH.
    rewrite emit_emit. reflexivity.
Qed.

Lemma scan_fix_escapes s : scan (fix_escapes s) = (fix_escapes s, 0).
Proof.
  induction s as [|c s Hc IH|id rest Hid IH] using scan_ind.
  - reflexivity.
  - pose proof (placeholder_at_fix_escapes (c :: s)) as Hout.
    rewrite (fix_escapes_miss c s Hc) in *.
    rewrite (scan_miss _ _ Hout), IH. reflexivity.
  - rewrite (fix_escapes_hit id rest Hid).
    rewrite (scan_copy (plain id) _ (no_backslash_plain id Hid)), IH.
    unfold emit. cbn [fst snd]. reflexivity.
Qed.

Lemma scan_length s : length (fst (scan s)) + 2 * snd (scan s) = length s.
Proof.
  induction s as [|c s Hc IH|id rest Hid IH] using scan_ind.
  - reflexivity.
  - rewrite (scan_miss c s Hc). unfold emit. cbn [fst snd app length]. lia.
  - rewrite (scan_hit id rest Hid). unfold emit, plain, escaped.
    cbn [fst snd app length]. rewrite !length_app in *. cbn [length]. lia.
Qed.

Lemma occurs_replaced s : occurs s <-> 0 < replaced s.
Proof.
  split.
  - intros H. apply occurs_occursb in H. revert H.
    induction s as [|c s Hc IH|id rest Hid IH] using scan_ind.
    + discriminate.
    + cbn [occursb]. rewrite Hc, (replaced_miss c s Hc). exact IH.
    + intros _. rewrite (replaced_hit id rest Hid). lia.
  - intros H. destruct (occursb s) eqn:E; [apply occursb_true, E|].
    apply not_occurs_iff, replaced_clean in E. lia.
Qed.

Lemma scan_pair s : scan s = (fix_escapes s, replaced s).
Proof. unfold fix_escapes, sub, replaced, scan. apply surjective_pairing. Qed.

Lemma escaped_inj id1 id2 : escaped id1 = escaped id2 -> id1 = id2.
Proof.
  unfold escaped. intros [= E]. apply app_inv_tail in E. exact E.
Qed.

Lemma matches_pattern_escaped id :
  matches pattern (escaped id) <-> is_identifier id = true.
Proof.
  rewrite matches_pattern. split.
  - intros (id' & Hid & E). apply escaped_inj in E. congruence.
  - intros Hid. exists id. auto.
Qed.

Lemma matches_pattern_length w : matches pattern w -> 5 <= length w.
Proof.
  intros H. apply matches_pattern in H as (id & Hid & ->).
  destruct id as [|c cs]; [discriminate|].
  unfold escaped. cbn [length app]. rewrite length_app. cbn [length]. lia.
Qed.

Lemma placeholder_at_none c s :
  placeholder_at (c :: s) = None <->
  (forall w rest, matches pattern w -> c :: s <> w ++ rest).
Proof.
  split.
  - intros Hc w rest Hw E. apply matches_pattern in Hw as (id & Hid & ->).
    rewrite E, (placeholder_at_escaped id rest Hid) in Hc. discriminate.
  - intros H. destruct (placeholder_at (c :: s)) as [[id rest]|] eqn:E;
      [|reflexivity].
    apply placeholder_at_inv in E as [Hid E].
    exfalso. apply (H (escaped id) rest); [|exact E].
    apply matches_pattern_escaped, Hid.
Qed.

Lemma fix_escapes_repaired s : Repaired s (fix_escapes s).
Proof.
  induction s as [|c s Hc IH|id rest Hid IH] using scan_ind.
  - constructor.
  - rewrite (fix_escapes_miss c s Hc).
    apply Repaired_copy; [apply placeholder_at_none, Hc | exact IH].
  - rewrite (fix_escapes_hit id rest Hid).
    apply Repaired_match; [apply matches_pattern_escaped, Hid | exact IH].
Qed.

Lemma Repaired_fix_escapes s out : Repaired s out -> out = fix_escapes s.
Proof.
  induction 1 as [|id rest out Hid _ IH|c s out Hc _ IH].
  - reflexivity.
  - apply matches_pattern_escaped in Hid.
    rewrite (fix_escapes_hit id rest Hid), IH. reflexivity.
  - apply placeholder_at_none in Hc.
    rewrite (fix_escapes_miss c s Hc), IH. reflexivity.
Qed.

Lemma scan_weave segs : forall t0,
  ~ occurs t0 ->
  Forall (fun seg => matches pattern (escaped (fst seg)) /\ ~ occurs (snd seg)) segs ->
  scan (t0 ++ weave escaped segs) = (t0 ++ weave plain segs, length segs).
Proof.
  induction segs as [|[id txt] segs IH]; intros t0 Ht0 Hsegs; cbn [weave length].
  - rewrite !app_nil_r, scan_pair, (fix_escapes_clean t0 Ht0), (replaced_clean t0 Ht0).
    reflexivity.
  - inversion Hsegs as [|? ? [Hid Htxt] Hrest]; subst. cbn [fst snd] in *.
    apply matches_pattern_escaped in Hid.
    rewrite (scan_segment t0 id _ Ht0 Hid), (IH txt Htxt Hrest).
    unfold emit. cbn [fst snd]. rewrite <- !app_assoc. reflexivity.
Qed.

Lemma untouched_shift a pre w post :
  untouched (a ++ pre) w post -> untouched pre w post.
Proof.
  intros H p u q [Hu E].
  destruct (H (a ++ p) u q) as [Hl|Hr].
  - split; [exact Hu|]. rewrite <- !app_assoc. f_equal. exact E.
  - left. rewrite !length_app in Hl. lia.
  - right. rewrite !length_app in Hr. lia.
Qed.

Lemma fix_escapes_keep w : forall post,
  untouched [] w post -> fix_escapes (w ++ post) = w ++ fix_escapes post.
Proof.
  induction w as [|c w IH]; intros post H; [reflexivity|].
  assert (Hc : placeholder_at (c :: w ++ post) = None).
  { apply placeholder_at_none. intros u rest Hu E.
    destruct (H [] u rest) as [Hl|Hr].
    - split; [exact Hu | exact E].
    - apply matches_pattern_length in Hu. cbn [length] in Hl. lia.
    - cbn [length] in Hr. lia. }
  cbn [app]. rewrite (fix_escapes_miss _ _ Hc). f_equal. apply IH.
  intros p u q Hocc. right.
  destruct (H (c :: p) u q) as [Hl|Hr].
  - destruct Hocc as [Hu E]. split; [exact Hu|]. cbn [app] in *. f_equal. exact E.
  - cbn [length] in Hl. lia.
  - cbn [length] in *. lia.
Qed.

Lemma fix_escapes_untouched pre : forall w post,
  untouched pre w post ->
  fix_escapes (pre ++ w ++ post) = fix_escapes pre ++ w ++ fix_escapes post.
Proof.
  induction pre as [|c s Hc IH|id rest Hid IH] using scan_ind; intros w post H.
  - rewrite fix_escapes_nil. cbn [app]. apply fix_escapes_keep, H.
  - assert (Hc' : placeholder_at ((c :: s) ++ w ++ post) = None).
    { destruct (placeholder_at ((c :: s) ++ w ++ post)) as [[id rest]|] eqn:E;
        [|reflexivity].
      exfalso. apply placeholder_at_inv in E as [Hid E].
      destruct (H [] (escaped id) rest) as [Hl|Hr].
      - split; [apply matches_pattern_escaped, Hid | exact E].
      - apply app_eq_app in E as [l [[E1 _]|[E1 _]]].
        + rewrite E1, (placeholder_at_escaped id l Hid) in Hc. discriminate.
        + assert (l = []) as ->.
          { apply (f_equal (@length ascii)) in E1. rewrite length_app in E1.
            cbn [length] in *. destruct l; [reflexivity | cbn [length] in E1; lia]. }
          rewrite app_nil_r in E1. rewrite <- E1, <- (app_nil_r (escaped id)) in Hc.
          rewrite (placeholder_at_escaped id [] Hid) in Hc. discriminate.
      - cbn [length] in Hr. lia. }
    cbn [app] in *. rewrite (fix_escapes_miss _ _ Hc'), (fix_escapes_miss _ _ Hc).
    cbn [app]. f_equal. apply IH. apply (untouched_shift [c]). exact H.
  - rewrite <- app_assoc, !(fix_escapes_hit id _ Hid), <- app_assoc.
    f_equal. apply IH. apply (untouched_shift (escaped id)). exact H.
Qed.

Lemma occurrence_listed p : forall n s u q,
  occurrence s p u q -> List.In (n + length p, length u) (occurrences_from n s).
Proof.
  induction p as [|c p IH]; intros n s u q [Hu ->].
  - apply matches_pattern in Hu as (id & Hid & ->).
    cbn [app]. remember (escaped id ++ q) as s eqn:Es.
    destruct s as [|c0 s']; [unfold escaped in Es; discriminate Es|].
    cbn [occurrences_from]. rewrite Es, (placeholder_at_escaped id q Hid). left.
    cbn [length]. rewrite Nat.add_0_r. reflexivity.
  - cbn [app occurrences_from length].
    assert (Hin : List.In (S n + length p, length u)
                     (occurrences_from (S n) (p ++ u ++ q)))
      by (apply (IH (S n) _ u q); split; [exact Hu | reflexivity]).
    replace (n + S (length p)) with (S n + length p) by lia.
    destruct (placeholder_at (c :: p ++ u ++ q)) as [[id rest]|];
      [right|]; exact Hin.
Qed.

Lemma fix_escapes_before pre X :
  fix_escapes (pre ++ "\" :: "(" :: X)
  = fix_escapes pre ++ fix_escapes ("\" :: "(" :: X).
Proof. rewrite !fix_escapes_scan, scan_before. reflexivity. Qed.

Lemma fix_escapes_digit_start pre post :
  fix_escapes (pre ++ t "\(2x\)" ++ post)
  = fix_escapes pre ++ t "\(2x\)" ++ fix_escapes post.
Proof.
  cbn [t list_ascii_of_string app]. rewrite fix_escapes_before. f_equal.
  rewrite fix_escapes_miss by reflexivity.
  rewrite fix_escapes_miss by (apply placeholder_at_other; discriminate).
  rewrite fix_escapes_miss by (apply placeholder_at_other; discriminate).
  rewrite fix_escapes_miss by (apply placeholder_at_other; discriminate).
  rewrite fix_escapes_miss by (apply placeholder_at_not_paren; discriminate).
  rewrite fix_escapes_miss by (apply placeholder_at_other; discriminate).
  reflexivity.
Qed.

Lemma fix_escapes_empty_identifier pre post :
  fix_escapes (pre ++ t "\(\)" ++ post)
  = fix_escapes pre ++ t "\(\)" ++ fix_escapes post.
Proof.
  cbn [t list_ascii_of_string app]. rewrite fix_escapes_before. f_equal.
  rewrite fix_escapes_miss by reflexivity.
  rewrite fix_escapes_miss by (apply placeholder_at_other; discriminate).
  rewrite fix_escapes_miss by (apply placeholder_at_not_paren; discriminate).
  rewrite fix_escapes_miss by (apply placeholder_at_other; discriminate).
  reflexivity.
Qed.

(** ** The run of the script *)

Lemma main_done w f :
  files w path = Some f -> readable f = true -> writable f = true ->
  file_after (main w) = Some (fix_escapes (content f))
  /\ printed w (main w) = ["Fixed escaping issues"%string].
Proof.
  intros Hf Hr Hw. unfold main, read_file, write_file. rewrite Hf, Hr, Hw.
  cbn [file_after printed]. unfold read_file, print. cbn [files console].
  rewrite String.eqb_refl. cbn [readable content]. split; [reflexivity|].
  rewrite skipn_app, skipn_all, Nat.sub_diag. reflexivity.
Qed.

(** * The properties of the specification *)

(** C1.  For every input, the output of the substitution is the input with
    every non-overlapping match of the pattern, taken leftmost first,
    replaced by its identifier between plain parentheses (the two
    backslashes dropped, the identifier kept as it is), and with every
    character outside the matches copied as it is.  [Repaired] says exactly
    this, and the output is the only text it relates to the input. *)
Theorem fix_escapes_replaces_every_match (s : text) :
  Repaired s (fix_escapes s)
  /\ (forall out, Repaired s out -> out = fix_escapes s).
Proof.
  split; [apply fix_escapes_repaired | apply Repaired_fix_escapes].
Qed.

(** C2.  The pattern as the specification words it (one or more characters
    of letters and underscore, then zero or more of letters, digits,
    underscore and period, between backslash-parenthesis pairs) and the
    pattern of the script denote the same language, match the same prefix
    with the same group at the start of every text, and so replace the same
    substrings in every input. *)
Theorem spec_pattern_same_matches (s : text) :
  (forall w, matches spec_pattern w <-> matches pattern w)
  /\ match_at spec_pattern s = match_at pattern s
  /\ sub spec_pattern replacement s = fix_escapes s.
Proof.
  split; [|split].
  - intros w. rewrite matches_spec_pattern, matches_pattern. reflexivity.
  - rewrite match_at_spec_pattern, match_at_pattern. reflexivity.
  - unfold fix_escapes, sub. f_equal. apply subn_ext. intros s'.
    rewrite match_at_spec_pattern, match_at_pattern. reflexivity.
Qed.

(** C3.  In an input made of texts without occurrence and of placeholders
    between them, every placeholder is replaced on its own and every other
    character is unchanged; in particular for the two inputs of the
    specification. *)
Theorem fix_escapes_multiple_occurrences :
  (forall t0 segs,
      ~ occurs t0 ->
      Forall (fun seg => matches pattern (escaped (fst seg)) /\ ~ occurs (snd seg))
        segs ->
      fix_escapes (t0 ++ weave escaped segs) = t0 ++ weave plain segs
      /\ replaced (t0 ++ weave escaped segs) = length segs)
  /\ fix_escapes (t "\(a\) and \(b.c\)") = t "(a) and (b.c)"
  /\ fix_escapes (t "Hello \(name\), you have \(count\) items.")
     = t "Hello (name), you have (count) items.".
Proof.
  split; [|split; vm_compute; reflexivity].
  intros t0 segs Ht0 Hsegs.
  pose proof (scan_weave segs t0 Ht0 Hsegs) as E. rewrite scan_pair in E.
  injection E as E1 E2. auto.
Qed.

Lemma fix_escapes_multiple_occurrences_witness :
  let segs := [(t "name", t ", you have "); (t "count", t " items.")] in
  (~ occurs (t "Hello ")
   /\ Forall (fun seg => matches pattern (escaped (fst seg)) /\ ~ occurs (snd seg))
        segs)
  /\ fix_escapes (t "Hello " ++ weave escaped segs)
     = t "Hello (name), you have (count) items.".
Proof.
  intros segs.
  assert (H0 : ~ occurs (t "Hello ")) by (apply not_occurs_iff; reflexivity).
  assert (Hsegs : Forall (fun seg => matches pattern (escaped (fst seg))
                                     /\ ~ occurs (snd seg)) segs).
  { repeat constructor;
      try (apply matches_pattern_escaped; reflexivity);
      apply not_occurs_iff; reflexivity. }
  split; [split; assumption|].
  exact (proj1 (proj1 fix_escapes_multiple_occurrences (t "Hello ") segs H0 Hsegs)).
Defined.

(** C4.  When the input holds exactly one occurrence of the pattern, the
    output is the input with that occurrence replaced by its identifier
    between plain parentheses; the identifier, digits and dots included, and
    the text around it are unchanged; in particular for the two inputs of the
    specification. *)
Theorem fix_escapes_single_occurrence :
  (forall s pre w post,
      occurrence s pre w post ->
      (forall pre' w' post', occurrence s pre' w' post' -> pre' = pre) ->
      exists id, w = escaped id /\ fix_escapes s = pre ++ plain id ++ post)
  /\ fix_escapes (t "\(user.name\)") = t "(user.name)"
  /\ fix_escapes (t "\(item.price2\)") = t "(item.price2)".
Proof.
  split; [|split; vm_compute; reflexivity].
  intros s pre w post [Hw ->] Huniq.
  pose proof Hw as Hid. apply matches_pattern in Hid as (id & Hid & ->).
  exists id. split; [reflexivity|].
  assert (Hpre : ~ occurs pre).
  { intros (a & w' & b & Hw' & ->).
    assert (E : a = a ++ w' ++ b).
    { apply (Huniq a w' (b ++ escaped id ++ post)).
      split; [exact Hw'|]. rewrite <- !app_assoc. reflexivity. }
    apply matches_pattern_length in Hw'.
    apply (f_equal (@length ascii)) in E. rewrite !length_app in E. lia. }
  assert (Hpost : ~ occurs post).
  { intros (a & w' & b & Hw' & ->).
    assert (E : pre ++ escaped id ++ a = pre).
    { apply (Huniq _ w' b).
      split; [exact Hw'|]. rewrite <- !app_assoc. reflexivity. }
    apply matches_pattern_length in Hw.
    apply (f_equal (@length ascii)) in E. rewrite !length_app in E. lia. }
  rewrite fix_escapes_scan, (scan_segment pre id post Hpre Hid).
  unfold emit. cbn [fst]. rewrite <- fix_escapes_scan, (fix_escapes_clean post Hpost).
  rewrite <- app_assoc. reflexivity.
Qed.

Lemma fix_escapes_single_occurrence_witness :
  let s := t "x = \(user.name\);" in
  (occurrence s (t "x = ") (escaped (t "user.name")) (t ";")
   /\ (forall pre' w' post', occurrence s pre' w' post' -> pre' = t "x = "))
  /\ fix_escapes s = t "x = (user.name);".
Proof.
  intros s.
  assert (Hocc : occurrence s (t "x = ") (escaped (t "user.name")) (t ";"))
    by (split; [apply matches_pattern_escaped|]; reflexivity).
  assert (Huniq : forall pre' w' post',
             occurrence s pre' w' post' -> pre' = t "x = ").
  { intros pre' w' post' H.
    pose proof (occurrence_listed pre' 0 s w' post' H) as Hin.
    destruct H as [_ E].
    destruct Hin as [Hin|[]]. injection Hin as Hlen _.
    apply (f_equal (firstn 4)) in E.
    rewrite firstn_app, <- Hlen, Nat.sub_diag, firstn_O, app_nil_r in E.
    rewrite (firstn_all2 pre') in E by lia. symmetry. exact E. }
  split; [split; assumption|].
  destruct (proj1 fix_escapes_single_occurrence s _ _ _ Hocc Huniq)
    as (id & Hid & E).
  apply escaped_inj in Hid. subst id. exact E.
Defined.

(** C5.  An input without occurrence of the pattern is its own output. *)
Theorem fix_escapes_without_occurrence (s : text) :
  ~ occurs s -> fix_escapes s = s.
Proof. apply fix_escapes_clean. Qed.

Lemma fix_escapes_without_occurrence_witness :
  ~ occurs (t "print(user.name) \n (x)")
  /\ fix_escapes (t "print(user.name) \n (x)") = t "print(user.name) \n (x)".
Proof.
  assert (H : ~ occurs (t "print(user.name) \n (x)"))
    by (apply not_occurs_iff; reflexivity).
  split; [exact H|]. exact (fix_escapes_without_occurrence _ H).
Defined.

(** C6.  A part of the input that no match of the pattern touches stands
    unchanged in the output, between the outputs of what is before and behind
    it, and a sequence in which the pattern matches nowhere is its own
    output.  A placeholder whose identifier starts with a digit and a
    placeholder with an empty identifier are kept wherever they stand;
    unbalanced escapes and backslash pairs that belong to no placeholder are
    kept as well. *)
Theorem fix_escapes_keeps_non_matches :
  (forall pre w post,
      untouched pre w post ->
      fix_escapes (pre ++ w ++ post) = fix_escapes pre ++ w ++ fix_escapes post)
  /\ (forall w, ~ occurs w -> fix_escapes w = w)
  /\ (forall pre post,
        fix_escapes (pre ++ t "\(2x\)" ++ post)
        = fix_escapes pre ++ t "\(2x\)" ++ fix_escapes post)
  /\ (forall pre post,
        fix_escapes (pre ++ t "\(\)" ++ post)
        = fix_escapes pre ++ t "\(\)" ++ fix_escapes post)
  /\ fix_escapes (t "\(name) (name\) \(name \name\)")
     = t "\(name) (name\) \(name \name\)"
  /\ fix_escapes (t "C:\\dir\\(x) and \n\t and \[y\]")
     = t "C:\\dir\\(x) and \n\t and \[y\]".
Proof.
  split; [|split; [|split; [|split; [|split; vm_compute; reflexivity]]]].
  - intros pre w post. apply fix_escapes_untouched.
  - apply fix_escapes_clean.
  - apply fix_escapes_digit_start.
  - apply fix_escapes_empty_identifier.
Qed.

Lemma fix_escapes_keeps_non_matches_witness :
  untouched (t "\(a\) ") (t "\(2x\)") (t " \(b\)")
  /\ fix_escapes (t "\(a\) " ++ t "\(2x\)" ++ t " \(b\)") = t "(a) \(2x\) (b)".
Proof.
  assert (H : untouched (t "\(a\) ") (t "\(2x\)") (t " \(b\)")).
  { intros p u q Hocc.
    pose proof (occurrence_listed p 0 _ u q Hocc) as Hin.
    destruct Hin as [Hin|[Hin|[]]]; injection Hin as Hp Hu;
      cbn [Nat.add] in Hp; rewrite <- Hp, <- Hu; cbn; lia. }
  split; [exact H|].
  exact (proj1 fix_escapes_keeps_non_matches _ _ _ H).
Defined.

(** C7.  On an input already in fixed form, that is, without occurrence of
    the pattern, two applications give what one gives; the second application
    replaces nothing and changes nothing. *)
Theorem fix_escapes_twice_on_fixed (s : text) :
  ~ occurs s ->
  fix_escapes (fix_escapes s) = fix_escapes s
  /\ replaced (fix_escapes s) = 0
  /\ fix_escapes s = s.
Proof.
  intros H. rewrite !(fix_escapes_clean s H).
  split; [reflexivity | split; [apply replaced_clean, H | reflexivity]].
Qed.

Lemma fix_escapes_twice_on_fixed_witness :
  ~ occurs (t "Hello (name), you have (count) items.")
  /\ fix_escapes (fix_escapes (t "Hello (name), you have (count) items."))
     = fix_escapes (t "Hello (name), you have (count) items.").
Proof.
  assert (H : ~ occurs (t "Hello (name), you have (count) items."))
    by (apply not_occurs_iff; reflexivity).
  split; [exact H|]. exact (proj1 (fix_escapes_twice_on_fixed _ H)).
Defined.

(** C8.  For every input, two applications give what one gives: the output
    of one pass holds no occurrence of the pattern, so a second pass replaces
    nothing.  What a pass writes for a match holds no backslash. *)
Theorem fix_escapes_idempotent (s : text) :
  fix_escapes (fix_escapes s) = fix_escapes s
  /\ ~ occurs (fix_escapes s)
  /\ replaced (fix_escapes s) = 0
  /\ (forall id, matches pattern (escaped id) -> ~ List.In "\" (plain id)).
Proof.
  pose proof (scan_fix_escapes s) as E. rewrite scan_pair in E.
  injection E as E1 E2.
  split; [exact E1 | split; [|split; [exact E2|]]].
  - intros H. apply occurs_replaced in H. lia.
  - intros id Hid Hin. apply matches_pattern_escaped in Hid.
    pose proof (no_backslash_plain id Hid) as Hall.
    rewrite Forall_forall in Hall. exact (Hall _ Hin eq_refl).
Qed.

(** C9.  The output is shorter than the input by two characters for each
    match replaced, so it is never longer than the input. *)
Theorem fix_escapes_length (s : text) :
  length (fix_escapes s) = length s - 2 * replaced s
  /\ 2 * replaced s <= length s
  /\ length (fix_escapes s) <= length s.
Proof.
  pose proof (scan_length s) as H. rewrite scan_pair in H. cbn [fst snd] in H.
  lia.
Qed.



(** * Further properties of the script *)

(** ** The substitution and the backslashes *)

Lemma without_backslashes_app a b :
  without_backslashes (a ++ b) = without_backslashes a ++ without_backslashes b.
Proof. apply filter_app. Qed.

Lemma without_backslashes_id l :
  Forall (fun c => c <> "\") l -> without_backslashes l = l.
Proof.
  intros H. apply forallb_filter_id, forallb_forall. intros c Hc.
  rewrite Forall_forall in H. specialize (H c Hc).
  destruct (Ascii.eqb_spec "\" c) as [E|_]; [congruence | reflexivity].
Qed.

Lemma identifier_no_backslash id :
  is_identifier id = true -> Forall (fun c => c <> "\") id.
Proof.
  intros Hid. apply is_identifier_part in Hid.
  apply Forall_forall. intros c Hc ->.
  rewrite forallb_forall in Hid. specialize (Hid _ Hc). discriminate Hid.
Qed.

Lemma without_backslashes_escaped id :
  is_identifier id = true -> without_backslashes (escaped id) = plain id.
Proof.
  intros Hid. unfold escaped, plain.
  change ("\" :: "(" :: id ++ ["\"; ")"]) with (["\"; "("] ++ id ++ ["\"; ")"]).
  rewrite !without_backslashes_app.
  rewrite (without_backslashes_id id (identifier_no_backslash id Hid)).
  reflexivity.
Qed.

Lemma without_backslashes_scan s :
  without_backslashes (fix_escapes s) = without_backslashes s.
Proof.
  induction s as [|c s Hc IH|id rest Hid IH] using scan_ind.
  - reflexivity.
  - rewrite (fix_escapes_miss c s Hc).
    change (without_backslashes (c :: fix_escapes s))
      with (if negb (Ascii.eqb "\" c) then c :: without_backslashes (fix_escapes s)
            else without_backslashes (fix_escapes s)).
    rewrite IH. reflexivity.
  - rewrite (fix_escapes_hit id rest Hid), !without_backslashes_app, IH.
    rewrite (without_backslashes_escaped id Hid).
    rewrite (without_backslashes_id (plain id) (no_backslash_plain id Hid)).
    reflexivity.
Qed.

Lemma backslashes_length s :
  backslashes s + length (without_backslashes s) = length s.
Proof. apply filter_length. Qed.

Lemma backslashes_scan s :
  backslashes (fix_escapes s) + 2 * replaced s = backslashes s.
Proof.
  pose proof (scan_length s) as H. rewrite scan_pair in H. cbn [fst snd] in H.
  pose proof (backslashes_length s) as H1.
  pose proof (backslashes_length (fix_escapes s)) as H2.
  rewrite without_backslashes_scan in H2. lia.
Qed.

Lemma replaced_zero s : replaced s = 0 -> fix_escapes s = s.
Proof.
  intros H. apply fix_escapes_clean. intros Hocc.
  apply occurs_replaced in Hocc. lia.
Qed.

Lemma replaced_bound s : 5 * replaced s <= length s.
Proof.
  induction s as [|c s Hc IH|id rest Hid IH] using scan_ind.
  - unfold replaced. rewrite scan_nil. cbn [snd length]. lia.
  - rewrite (replaced_miss c s Hc). cbn [length]. lia.
  - rewrite (replaced_hit id rest Hid), length_app.
    pose proof (matches_pattern_length (escaped id)
                  (proj2 (matches_pattern_escaped id) Hid)). lia.
Qed.

Lemma scan_placeholder u id v :
  is_identifier id = true ->
  scan (u ++ escaped id ++ v)
  = (fix_escapes u ++ plain id ++ fix_escapes v, replaced u + 1 + replaced v).
Proof.
  intros Hid.
  change (escaped id ++ v) with ("\" :: "(" :: (id ++ ["\"; ")"]) ++ v).
  rewrite scan_before.
  change ("\" :: "(" :: (id ++ ["\"; ")"]) ++ v) with (escaped id ++ v).
  rewrite (scan_hit id v Hid), emit_emit, (scan_pair v).
  unfold emit. cbn [fst snd].
  change (fst (scan u)) with (fix_escapes u).
  change (snd (scan u)) with (replaced u).
  rewrite <- app_assoc. reflexivity.
Qed.

(** X1.  The substitution deletes backslashes and nothing else: without their
    backslashes, input and output are the same text, and the output has two
    backslashes fewer for every replacement. *)
Theorem fix_escapes_only_drops_backslashes (s : text) :
  without_backslashes (fix_escapes s) = without_backslashes s
  /\ backslashes (fix_escapes s) + 2 * replaced s = backslashes s.
Proof.
  split; [apply without_backslashes_scan | apply backslashes_scan].
Qed.

(** X2.  An input with fewer than two backslashes is its own output. *)
Theorem fix_escapes_few_backslashes (s : text) :
  backslashes s < 2 -> fix_escapes s = s.
Proof.
  intros H. apply replaced_zero.
  pose proof (backslashes_scan s). lia.
Qed.

Lemma fix_escapes_few_backslashes_witness :
  backslashes (t "call\(user.name) (x)") < 2
  /\ fix_escapes (t "call\(user.name) (x)") = t "call\(user.name) (x)".
Proof.
  assert (H : backslashes (t "call\(user.name) (x)") < 2) by (vm_compute; lia).
  split; [exact H|]. exact (fix_escapes_few_backslashes _ H).
Defined.

(** X3.  A match takes at least five characters: the number of replacements
    is at most a fifth of the length of the input, an input of fewer than
    five characters is its own output, and five characters can be a match. *)
Theorem fix_escapes_short_input :
  (forall s, 5 * replaced s <= length s)
  /\ (forall s, length s < 5 -> fix_escapes s = s)
  /\ (exists s, length s = 5 /\ fix_escapes s <> s).
Proof.
  split; [apply replaced_bound | split].
  - intros s H. apply replaced_zero. pose proof (replaced_bound s). lia.
  - exists (t "\(a\)"). split; [reflexivity|]. vm_compute. discriminate.
Qed.

(** X4.  A placeholder is replaced wherever it stands: the text before it and
    the text behind it are scanned as if they stood alone. *)
Theorem fix_escapes_placeholder_anywhere (u id v : text) :
  matches pattern (escaped id) ->
  fix_escapes (u ++ escaped id ++ v) = fix_escapes u ++ plain id ++ fix_escapes v
  /\ replaced (u ++ escaped id ++ v) = replaced u + 1 + replaced v.
Proof.
  intros Hid. apply matches_pattern_escaped in Hid.
  pose proof (scan_placeholder u id v Hid) as E. rewrite scan_pair in E.
  injection E as E1 E2. auto.
Qed.

Lemma fix_escapes_placeholder_anywhere_witness :
  matches pattern (escaped (t "b.c"))
  /\ fix_escapes (t "\(a\) \(" ++ escaped (t "b.c") ++ t "\) \(d\)")
     = t "(a) \((b.c)\) (d)".
Proof.
  assert (H : matches pattern (escaped (t "b.c")))
    by (apply matches_pattern_escaped; reflexivity).
  split; [exact H|].
  exact (proj1 (fix_escapes_placeholder_anywhere (t "\(a\) \(") (t "b.c")
                  (t "\) \(d\)") H)).
Defined.

(** X5.  Occurrences of the pattern in a text never overlap, and at one
    position there is at most one: of two occurrences, the one that starts
    first ends before the other starts, or they are the same. *)
Theorem occurrences_disjoint (s p1 u1 q1 p2 u2 q2 : text) :
  occurrence s p1 u1 q1 -> occurrence s p2 u2 q2 ->
  length p1 <= length p2 ->
  (p1 = p2 /\ u1 = u2 /\ q1 = q2) \/ length p1 + length u1 <= length p2.
Proof.
  intros [Hu1 E1] [Hu2 E2] Hle.
  apply matches_pattern in Hu1 as (id1 & Hid1 & ->).
  apply matches_pattern in Hu2 as (id2 & Hid2 & ->).
  rewrite E1 in E2. clear E1.
  assert (Hl : exists l, p2 = p1 ++ l /\ escaped id1 ++ q1 = l ++ escaped id2 ++ q2).
  { apply app_eq_app in E2 as [l [[E3 E4]|[E3 E4]]].
    - assert (l = []) as ->.
      { apply (f_equal (@length ascii)) in E3. rewrite length_app in E3.
        destruct l; [reflexivity | cbn [length] in E3; lia]. }
      exists []. rewrite app_nil_r in *. split; [auto|]. cbn [app] in *. auto.
    - exists l. auto. }
  destruct Hl as (l & -> & E).
  pose proof (placeholder_at_escaped id1 q1 Hid1) as Hm. rewrite E in Hm.
  destruct l as [|c l].
  - left. cbn [app] in Hm. rewrite (placeholder_at_escaped id2 q2 Hid2) in Hm.
    injection Hm as -> ->. rewrite app_nil_r. auto.
  - right.
    change (escaped id2 ++ q2) with ("\" :: "(" :: (id2 ++ ["\"; ")"]) ++ q2) in Hm.
    apply placeholder_at_before in Hm as (r & Hm & _); [|discriminate].
    apply placeholder_at_inv in Hm as [_ Hm].
    rewrite Hm, !length_app. lia.
Qed.

Lemma occurrences_disjoint_witness :
  let s := t "\(a\) and \(b.c\)" in
  (occurrence s [] (escaped (t "a")) (t " and \(b.c\)")
   /\ occurrence s (t "\(a\) and ") (escaped (t "b.c")) []
   /\ length (@nil ascii) <= length (t "\(a\) and "))
  /\ length (@nil ascii) + length (escaped (t "a")) <= length (t "\(a\) and ").
Proof.
  intros s.
  assert (H1 : occurrence s [] (escaped (t "a")) (t " and \(b.c\)"))
    by (split; [apply matches_pattern_escaped|]; reflexivity).
  assert (H2 : occurrence s (t "\(a\) and ") (escaped (t "b.c")) [])
    by (split; [apply matches_pattern_escaped|]; reflexivity).
  assert (H3 : length (@nil ascii) <= length (t "\(a\) and ")) by (cbn; lia).
  split; [auto|].
  destruct (occurrences_disjoint s _ _ _ _ _ _ H1 H2 H3) as [[E _]|H];
    [discriminate E | exact H].
Defined.

(** ** Characters that no match contains *)

Lemma placeholder_at_sep a c v id rest :
  c <> "\" -> c <> "(" -> c <> ")" -> is_part c = false ->
  placeholder_at (a ++ c :: v) = Some (id, rest) ->
  exists r, placeholder_at a = Some (id, r) /\ rest = r ++ c :: v.
Proof.
  intros Hb Ho Hc Hp.
  assert (Hs : is_start c = false).
  { destruct (is_start c) eqn:E; [|reflexivity].
    apply is_start_part in E. congruence. }
  destruct a as [|b [|p [|c0 u1]]]; cbn [app].
  - rewrite (placeholder_at_other c v Hb). discriminate.
  - rewrite (placeholder_at_not_paren b c v Ho). discriminate.
  - cbn [placeholder_at]. rewrite Hs, andb_false_r. discriminate.
  - cbn [placeholder_at].
    destruct (Ascii.eqb "\" b && Ascii.eqb "(" p && is_start c0); [|discriminate].
    rewrite span_in_app_l.
    destruct (snd (span_in rest_set u1)) as [|b' [|p' r]]; cbn [snd fst app].
    + cbn [span_in]. unfold is_part in Hp. rewrite Hp. cbn [snd].
      destruct v as [|p' v]; [discriminate|].
      destruct (Ascii.eqb_spec "\" c) as [E|_]; [congruence | discriminate].
    + destruct (Ascii.eqb_spec ")" c) as [E|_]; [congruence|].
      rewrite andb_false_r. discriminate.
    + destruct (Ascii.eqb "\" b' && Ascii.eqb ")" p'); [|discriminate].
      intros [= <- <-]. exists r. split; reflexivity.
Qed.

Lemma scan_sep u c v :
  c <> "\" -> c <> "(" -> c <> ")" -> is_part c = false ->
  scan (u ++ c :: v) = emit (fst (scan u) ++ [c]) (snd (scan u)) (scan v).
Proof.
  intros Hb Ho Hc Hp.
  induction u as [|c0 s Hc0 IH|id rest Hid IH] using scan_ind.
  - cbn [app]. rewrite (scan_miss c v (placeholder_at_other c v Hb)), scan_nil.
    reflexivity.
  - assert (Hc' : placeholder_at ((c0 :: s) ++ c :: v) = None).
    { destruct (placeholder_at ((c0 :: s) ++ c :: v)) as [[id rest]|] eqn:E;
        [|reflexivity].
      apply placeholder_at_sep in E as (r & E & _); congruence. }
    cbn [app] in *. rewrite (scan_miss _ _ Hc'), (scan_miss _ _ Hc0), IH.
    rewrite emit_emit. reflexivity.
  - rewrite <- app_assoc, !(scan_hit _ _ Hid), IH.
    unfold emit. cbn [fst snd]. rewrite <- !app_assoc, Nat.add_assoc.
    reflexivity.
Qed.

Lemma outside_pattern c :
  (forall w, matches pattern w -> ~ List.In c w) <->
  c <> "\" /\ c <> "(" /\ c <> ")" /\ is_part c = false.
Proof.
  split.
  - intros H.
    assert (Ha : matches pattern (escaped ["a"]))
      by (apply matches_pattern_escaped; reflexivity).
    repeat split.
    + intros ->. apply (H _ Ha). cbn. auto.
    + intros ->. apply (H _ Ha). cbn. auto.
    + intros ->. apply (H _ Ha). cbn. auto 6.
    + destruct (is_part c) eqn:E; [|reflexivity]. exfalso.
      apply (H (escaped ["a"; c])).
      * apply matches_pattern_escaped. cbn [is_identifier forallb].
        rewrite E. reflexivity.
      * cbn. auto.
  - intros (Hb & Ho & Hc & Hp) w Hw Hin.
    apply matches_pattern in Hw as (id & Hid & ->).
    apply is_identifier_part in Hid. rewrite forallb_forall in Hid.
    unfold escaped in Hin. cbn [List.In] in Hin.
    destruct Hin as [E|[E|Hin]]; [congruence | congruence |].
    apply in_app_iff in Hin as [Hin|Hin].
    + specialize (Hid c Hin). congruence.
    + cbn in Hin. destruct Hin as [E|[E|[]]]; congruence.
Qed.

Lemma join_cons c l l2 ls : join c (l :: l2 :: ls) = l ++ c :: join c (l2 :: ls).
Proof. reflexivity. Qed.

(** X6.  A character that no match of the pattern contains, a line end for
    one, separates the work: the output of texts joined by it is the outputs
    of the texts joined by it, and the replacements add up. *)
Theorem fix_escapes_join (c : ascii) (ls : list text) :
  (forall w, matches pattern w -> ~ List.In c w) ->
  fix_escapes (join c ls) = join c (map fix_escapes ls)
  /\ replaced (join c ls) = list_sum (map replaced ls).
Proof.
  intros H. apply outside_pattern in H as (Hb & Ho & Hc & Hp).
  induction ls as [|l ls IH].
  - split; reflexivity.
  - destruct ls as [|l2 ls].
    + unfold list_sum. cbn [join map fold_right]. split; [reflexivity | lia].
    + destruct IH as [IH1 IH2].
      cbn [map] in *. rewrite !join_cons.
      pose proof (scan_sep l c (join c (l2 :: ls)) Hb Ho Hc Hp) as E.
      rewrite !scan_pair in E. unfold emit in E.
      pose proof (f_equal fst E) as E1. pose proof (f_equal snd E) as E2.
      cbn [fst snd] in E1, E2. rewrite E1, E2, IH1, IH2, <- app_assoc.
      split; reflexivity.
Qed.

Lemma fix_escapes_join_witness :
  let nl := ascii_of_nat 10 in
  (forall w, matches pattern w -> ~ List.In nl w)
  /\ fix_escapes (join nl [t "let a = \(x\)"; t "\(unclosed"; t "\) \(y.z\)"])
     = join nl [t "let a = (x)"; t "\(unclosed"; t "\) (y.z)"].
Proof.
  intros nl.
  assert (H : forall w, matches pattern w -> ~ List.In nl w).
  { apply outside_pattern. repeat split; try discriminate. }
  split; [exact H|].
  exact (proj1 (fix_escapes_join nl _ H)).
Defined.

(** ** The match at the start of a text *)

Lemma placeholder_at_none_iff s :
  placeholder_at s = None <->
  (forall w rest, matches pattern w -> s <> w ++ rest).
Proof.
  destruct s as [|c s]; [|apply placeholder_at_none].
  split; [|reflexivity].
  intros _ w rest Hw E. apply matches_pattern_length in Hw.
  apply (f_equal (@length ascii)) in E. rewrite length_app in E.
  cbn [length] in E. lia.
Qed.

(** X7.  At the start of a text the pattern matches exactly when the text
    starts with a placeholder; the match then ends behind the closing
    parenthesis and group 1 is the identifier.  It fails exactly when no
    prefix of the text is in the language of the pattern. *)
Theorem match_at_pattern_placeholder (s : text) :
  (forall rest g,
      match_at pattern s = Some (rest, g) <->
      exists id, matches pattern (escaped id)
                 /\ s = escaped id ++ rest /\ g = [(1, id)])
  /\ (match_at pattern s = None <->
      forall w rest, matches pattern w -> s <> w ++ rest).
Proof.
  rewrite match_at_pattern. split.
  - intros rest g. split.
    + destruct (placeholder_at s) as [[id r]|] eqn:E; [|discriminate].
      cbn [of_placeholder]. intros [= <- <-].
      apply placeholder_at_inv in E as [Hid E].
      exists id. split; [apply matches_pattern_escaped, Hid | auto].
    + intros (id & Hid & -> & ->). apply matches_pattern_escaped in Hid.
      rewrite (placeholder_at_escaped id rest Hid). reflexivity.
  - rewrite <- placeholder_at_none_iff.
    destruct (placeholder_at s) as [[id r]|]; cbn [of_placeholder];
      split; congruence.
Qed.

(** ** The run of the script, continued *)

Lemma main_done_inv w w' :
  main w = Done w' ->
  exists f,
    files w path = Some f /\ readable f = true /\ writable f = true
    /\ files w' path
       = Some {| content := fix_escapes (content f); readable := readable f;
                 writable := writable f |}
    /\ (forall q, q <> path -> files w' q = files w q)
    /\ console w' = console w ++ ["Fixed escaping issues"%string].
Proof.
  unfold main, read_file, write_file.
  destruct (files w path) as [f|] eqn:Hf; [|discriminate].
  destruct (readable f) eqn:Hr; [|discriminate].
  destruct (writable f) eqn:Hw; [|discriminate].
  intros [= <-]. exists f. unfold print. cbn [files console].
  rewrite String.eqb_refl.
  split; [reflexivity|]. split; [exact Hr|]. split; [exact Hw|].
  split; [rewrite Hr, Hw; reflexivity|]. split; [|reflexivity].
  intros q Hq. apply String.eqb_neq in Hq. rewrite Hq. reflexivity.
Qed.

Lemma main_succeeds w f :
  files w path = Some f -> readable f = true -> writable f = true ->
  exists w', main w = Done w'.
Proof.
  intros Hf Hr Hw. unfold main, read_file, write_file. rewrite Hf, Hr, Hw.
  eexists. reflexivity.
Qed.

Lemma fix_escapes_fix_escapes s : fix_escapes (fix_escapes s) = fix_escapes s.
Proof.
  pose proof (scan_fix_escapes s) as E. rewrite scan_pair in E.
  exact (f_equal fst E).
Qed.


(** X9.  A run that completes changes the text of the one file only: every
    other file is as before, the file keeps its permissions, its text is the
    substitution applied to the text it had, and the console has the one
    line more. *)
Theorem main_frame (w w' : world) :
  main w = Done w' ->
  (forall q, q <> path -> files w' q = files w q)
  /\ (exists f f',
        files w path = Some f /\ files w' path = Some f'
        /\ content f' = fix_escapes (content f)
        /\ readable f' = readable f /\ writable f' = writable f)
  /\ console w' = console w ++ ["Fixed escaping issues"%string].
Proof.
  intros H. apply main_done_inv in H as (f & Hf & _ & _ & Hf' & Hq & Hc).
  split; [exact Hq | split; [|exact Hc]].
  exists f, {| content := fix_escapes (content f); readable := readable f;
               writable := writable f |}.
  cbn [content readable writable]. auto.
Qed.

Lemma main_frame_witness :
  let f := {| content := t "Hello \(name\)"; readable := true; writable := true |} in
  let other := {| content := t "\(x\)"; readable := true; writable := false |} in
  let w := {| files := fun q => if String.eqb q path then Some f
                                else if String.eqb q "notes.txt" then Some other
                                else None;
              console := ["earlier output"%string] |} in
  exists w',
    main w = Done w'
    /\ files w' "notes.txt"%string = Some other
    /\ console w' = ["earlier output"%string; "Fixed escaping issues"%string].
Proof.
  intros f other w. eexists. split; [reflexivity|].
  destruct (main_frame w _ eq_refl) as (Hq & _ & Hc).
  split; [|exact Hc]. rewrite Hq by discriminate. reflexivity.
Defined.

(** X10.  A second run after a run that completed completes as well, changes
    no file, and prints the line again. *)
Theorem main_twice (w w' : world) :
  main w = Done w' ->
  exists w'',
    main w' = Done w''
    /\ (forall q, files w'' q = files w' q)
    /\ console w'' = console w' ++ ["Fixed escaping issues"%string].
Proof.
  intros H. apply main_done_inv in H as (f & Hf & Hr & Hw & Hf' & Hq & Hc).
  destruct (main_succeeds w' _ Hf' Hr Hw) as (w'' & H2).
  exists w''. split; [exact H2|].
  apply main_done_inv in H2 as (f2 & Hf2 & _ & _ & Hf2' & Hq2 & Hc2).
  split; [|exact Hc2].
  rewrite Hf' in Hf2. injection Hf2 as <-.
  cbn [content readable writable] in Hf2'.
  rewrite fix_escapes_fix_escapes in Hf2'.
  intros q. destruct (String.eqb_spec q path) as [->|Hne].
  - rewrite Hf2', Hf'. reflexivity.
  - apply Hq2, Hne.
Qed.

Lemma main_twice_witness :
  let f := {| content := t "Hello \(name\)"; readable := true; writable := true |} in
  let w := {| files := fun q => if String.eqb q path then Some f else None;
              console := [] |} in
  exists w' w'',
    main w = Done w' /\ main w' = Done w''
    /\ file_after (main w') = Some (t "Hello (name)")
    /\ console w'' = ["Fixed escaping issues"%string; "Fixed escaping issues"%string].
Proof.
  intros f w. eexists.
  destruct (main_twice w _ eq_refl) as (w'' & H2 & Hq & Hc).
  exists w''. split; [reflexivity|]. split; [exact H2|].
  split; [reflexivity | exact Hc].
Defined.

(** X11.  When the text of the file holds no occurrence of the pattern, the
    run still completes, writes the text back as it was, and prints its
    line. *)
Theorem main_nothing_to_fix (w : world) (f : file) :
  files w path = Some f -> readable f = true -> writable f = true ->
  ~ occurs (content f) ->
  file_after (main w) = Some (content f)
  /\ printed w (main w) = ["Fixed escaping issues"%string].
Proof.
  intros Hf Hr Hw Hocc.
  destruct (main_done w f Hf Hr Hw) as [Ha Hp].
  rewrite Ha, Hp, (fix_escapes_clean _ Hocc). auto.
Qed.

Lemma main_nothing_to_fix_witness :
  let f := {| content := t "print(name)"; readable := true; writable := true |} in
  let w := {| files := fun q => if String.eqb q path then Some f else None;
              console := [] |} in
  ~ occurs (content f)
  /\ file_after (main w) = Some (t "print(name)")
  /\ printed w (main w) = ["Fixed escaping issues"%string].
Proof.
  intros f w.
  assert (H : ~ occurs (content f)) by (apply not_occurs_iff; reflexivity).
  split; [exact H|].
  exact (main_nothing_to_fix w f eq_refl eq_refl eq_refl H).
Defined.
